(** * Spatial regression notebooks: distance-decay kernels, multiplier
      helpers and the spatial multiplier table

    The notebooks compute with numpy/pandas double-precision floats.  Here
    every float is idealised as a real number of the Standard Library
    ([R]); rounding, overflow and the special values [inf] and [nan] are
    not part of the model, except that an operation which numpy answers
    with [inf] or [nan] yields [None] and a missing pandas cell is [NaN].

    - [Kernels]: the cells of the distance-decay notebook (triangular,
      Epanechnikov, quartic and Gaussian kernels, the negative exponential
      and the inverse power transformation).
    - [Frames]: the helper functions [multmap] and [nbreffect] of the
      spatial multipliers notebook, over an explicit object store and an
      output log.
    - [Multipliers]: the table computed by [i_multipliers], over MathComp
      matrices with real coefficients.
    - [Neighbors]: the cell that sums the weights of the neighbours of
      one unit.
    - [Simulation]: the rejection frequencies of the simulation cells. *)

From HB Require Import structures.
From Stdlib Require Import Reals Lra ZArith String ClassicalEpsilon
  FunctionalExtensionality.
From mathcomp Require Import ssreflect ssrfun ssrbool eqtype ssrnat seq choice
  fintype bigop finfun ssralg matrix.

Set Implicit Arguments.
Unset Strict Implicit.
Unset Printing Implicit Defensive.

Delimit Scope R_scope with Re.

(** A call either returns a value or raises an error of type [E]. *)
Inductive outcome (E A : Type) : Type :=
  | Returns (a : A)
  | Raises (e : E).
Arguments Returns {E A} a.
Arguments Raises {E A} e.

(** The error kinds of the specification. *)
Inductive error : Type :=
  | InvalidParameter
  | UnsupportedKernelKind
  | DimensionMismatch
  | UnsupportedModel
  | MatrixSingularity
  | InvalidColumn.

(* ===================================================================== *)
(** ** Distance-decay kernels and transformations                         *)
(* ===================================================================== *)

Module Kernels.
Local Open Scope R_scope.

(** [np.linspace(start, stop, num)]: [num] equidistant points. *)
Definition linspace (start stop : R) (num : nat) : seq R :=
  [seq start + INR k * ((stop - start) / INR (num - 1)) | k <- iota 0 num].

(** [z = np.linspace(0.0,1.0,num=21)]: the distance fractions (the
    reshape to a column does not change the values). *)
Definition z : seq R := linspace 0 1 21.

(** numpy arithmetic is elementwise: each cell below is a [map] of the
    scalar function written next to it. *)

(** [tri = 1.0 - z] *)
Definition triangular (x : R) : R := 1 - x.
Definition tri : seq R := [seq triangular x | x <- z].

(** [z2 = z**2] and [epa = 1.0 - z2] *)
Definition z2 : seq R := [seq x ^ 2 | x <- z].
Definition epa : seq R := [seq 1 - x | x <- z2].
Definition epanechnikov (x : R) : R := 1 - x ^ 2.

(** [quar = (1.0 - z2) ** 2] *)
Definition quar : seq R := [seq (1 - x) ^ 2 | x <- z2].
Definition quartic (x : R) : R := (1 - x ^ 2) ^ 2.

(** [zz = -z2 / 2.0] and [gs = np.exp(zz)] *)
Definition zz : seq R := [seq - x / 2 | x <- z2].
Definition gs : seq R := [seq exp x | x <- zz].
Definition gaussian (x : R) : R := exp (- x ^ 2 / 2).



(** [a = [0.0, 0.5, 1.0, 2.0, 6.0]]: the parameter values that are
    graphed. *)
Definition a : seq R := [:: 0; 0.5; 1; 2; 6].

(** Negative exponential: in the loop over [a],
    [za = - i * z] and [expon = np.exp(za)].  The cell has no [raise]
    and no test on [i]; it returns for every parameter value. *)
Definition expon (i : R) : seq R := [seq exp (- i * x) | x <- z].

Definition exponential_transform (x alpha : R) : outcome error R :=
  Returns (exp (- alpha * x)).

(** [x ** y] on floats with a float exponent.  [x ** 0.0] is [1.0] for
    every [x], a positive base gives [exp (y * ln x)], [0.0 ** y] is [0.0]
    for a positive [y] and [inf] for a negative one; a negative base (which
    needs [z > 1]) is outside the model. *)
Definition float_power (x y : R) : option R :=
  if Req_dec_T y 0 then Some 1
  else if Rlt_dec 0 x then Some (Rpower x y)
  else if Req_dec_T x 0 then (if Rlt_dec 0 y then Some 0 else None)
  else None.

(** Inverse distance power: [zz = 1.0 - z], then [za = zz**i] in the loop
    over [a]. *)
Definition power_transform (x alpha : R) : option R :=
  float_power (1 - x) alpha.

Definition pow_za (i : R) : seq (option R) :=
  [seq float_power x i | x <- [seq 1 - x | x <- z]].



(** [c.reshape(-1,1)]: a table of one column. *)
Definition column {T} (c : seq T) : seq (seq T) := [seq [:: x] | x <- c].

(** [np.hstack((p, c))] of a table and a column: numpy raises ValueError
    unless both have as many rows. *)
Definition hstack {T} (p : seq (seq T)) (c : seq T) : option (seq (seq T)) :=
  if size p == size c then Some [seq rcons rc.1 rc.2 | rc <- zip p c]
  else None.

(** The loop [for i in a: ...; p = np.hstack((p, f i))]. *)
Fixpoint table_loop {T} (f : R -> seq T) (p : seq (seq T)) (a : seq R)
    : option (seq (seq T)) :=
  match a with
  | [::] => Some p
  | i :: a' => if hstack p (f i) is Some p' then table_loop f p' a' else None
  end.

(** [cols = [prefix + str(i) for i in a]; cols.insert(0,"distance")] *)
Definition cols (str : R -> string) (prefix : string) (a : seq R)
    : seq string :=
  "distance"%string :: [seq (prefix ++ str i)%string | i <- a].

(** [pd.DataFrame(p, columns=cols)]: pandas raises ValueError unless every
    row has as many entries as there are names. *)
Definition data_frame {T} (p : seq (seq T)) (names : seq string)
    : option (seq string * seq (seq T)) :=
  if all (fun r => size r == size names) p then Some (names, p) else None.

(** The cell of the negative exponential for a parameter list [a]. *)
Definition df5 (str : R -> string) (a : seq R)
    : option (seq string * seq (seq R)) :=
  if table_loop expon (column z) a is Some p5
  then data_frame p5 (cols str "exp" a) else None.

(** The cell of the inverse distance power for a parameter list [a]. *)
Definition df6 (str : R -> string) (a : seq R)
    : option (seq string * seq (seq (option R))) :=
  if table_loop pow_za (column [seq Some x | x <- z]) a is Some p6
  then data_frame p6 (cols str "pow" a) else None.

End Kernels.

(* ===================================================================== *)
(** ** The helper functions [multmap] and [nbreffect]                      *)
(* ===================================================================== *)

Module Frames.
Local Open Scope string_scope.

(** A cell of a data frame: a number, a missing value, or any other
    object (a string, a geometry). *)
Inductive cell : Type :=
  | Num (x : R)
  | NaN
  | Obj (s : string).

(** A pandas DataFrame with the default RangeIndex: the row labelled [k]
    is the row at position [k].  A Series is a frame with one column. *)
Record frame : Type := Frame { columns : seq string; rows : seq (seq cell) }.

(** Python names are references: frames live in a store and the functions
    receive positions in it. *)
Definition ref : Type := nat.

(** What the functions write to the notebook output. *)
Inductive event : Type :=
  | Print (what : string) (value : cell) (id : Z)
      (* print(f"The {what} is {value:0.3f} with id {id}") *)
  | Plot (dfm : ref) (column : string)
      (* dfm.plot(column = column, scheme = 'Quantiles', k = 5, ...) *)
  | SetTitle (title : string)
  | SetAxisOff
  | Show.

Record state : Type := State { store : seq frame; output : seq event }.

(** Python exceptions that the two functions can end with. *)
Inductive exn : Type :=
  | Exception (msg : string)
  | KeyError (key : string)
  | IndexError
  | TypeError
  | ValueError.

(** Computations that read and extend the store, append to the output
    and may raise.  An exception keeps the effects made before it. *)
Definition M (A : Type) : Type := state -> outcome exn A * state.

Definition ret {A} (x : A) : M A := fun s => (Returns x, s).

Definition raise {A} (e : exn) : M A := fun s => (Raises e, s).

Definition bind {A B} (m : M A) (k : A -> M B) : M B :=
  fun s => match m s with
           | (Returns x, s') => k x s'
           | (Raises e, s') => (Raises e, s')
           end.

Notation "x <-- m ;; k" := (bind m (fun x => k))
  (at level 200, m at level 100, k at level 200, right associativity).
Notation "m ;;; k" := (bind m (fun _ => k))
  (at level 200, k at level 200, right associativity).

Definition lift {A} (o : outcome exn A) : M A := fun s => (o, s).

Definition default_frame : frame := Frame [::] [::].

Definition deref (r : ref) : M frame :=
  fun s => (Returns (nth default_frame (store s) r), s).

Definition alloc (f : frame) : M ref :=
  fun s => (Returns (size (store s)), State (rcons (store s) f) (output s)).

Definition emit (e : event) : M unit :=
  fun s => (Returns tt, State (store s) (rcons (output s) e)).

(** Positions of the columns called [name]. *)
Definition positions (name : string) (cols : seq string) : seq nat :=
  [seq i <- iota 0 (size cols) | String.eqb (nth "" cols i) name].

(** [f[[name]]]: a new frame with the columns called [name]. *)
Definition getitem (f : frame) (name : string) : outcome exn frame :=
  match positions name (columns f) with
  | [::] => Raises (KeyError name)
  | ps => Returns (Frame [seq nth "" (columns f) p | p <- ps]
                         [seq [seq nth NaN r p | p <- ps] | r <- rows f])
  end.

Definition Rltb (x y : R) : bool := if Rlt_dec x y then true else false.

(** Position of the first best value of a column, missing values
    skipped; [better x b] says that [x] replaces the best value [b]. *)
Fixpoint arg_best (better : R -> R -> bool) (vs : seq cell) (i : nat)
    (best : option (nat * R)) : outcome exn (option (nat * R)) :=
  match vs with
  | [::] => Returns best
  | Num x :: vs' =>
      arg_best better vs' i.+1
        (match best with
         | Some (_, b) => if better x b then Some (i, x) else best
         | None => Some (i, x)
         end)
  | NaN :: vs' => arg_best better vs' i.+1 best
  | Obj _ :: _ => Raises TypeError
  end.

Definition idx_column (better : R -> R -> bool) (f : frame) (p : nat)
  : outcome exn nat :=
  match arg_best better [seq nth NaN r p | r <- rows f] 0 None with
  | Returns (Some (i, _)) => Returns i
  | Returns None => Raises ValueError
  | Raises e => Raises e
  end.

Fixpoint sequence {A} (os : seq (outcome exn A)) : outcome exn (seq A) :=
  match os with
  | [::] => Returns [::]
  | Returns x :: os' =>
      match sequence os' with
      | Returns xs => Returns (x :: xs)
      | Raises e => Raises e
      end
  | Raises e :: _ => Raises e
  end.

(** [f.idxmax()] and [f.idxmin()]: one label for each column. *)
Definition idxmax (f : frame) : outcome exn (seq nat) :=
  sequence [seq idx_column (fun x b => Rltb b x) f p
           | p <- iota 0 (size (columns f))].

Definition idxmin (f : frame) : outcome exn (seq nat) :=
  sequence [seq idx_column (fun x b => Rltb x b) f p
           | p <- iota 0 (size (columns f))].

(** [int(...)] of a one-element Series of labels, and of a row. *)
Definition int_of_labels (ls : seq nat) : outcome exn nat :=
  match ls with
  | [:: l] => Returns l
  | _ => Raises TypeError
  end.

Definition trunc (x : R) : Z :=
  if Rle_dec 0 x then Int_part x else (- Int_part (- x))%Z.

Definition int_of_row (r : seq cell) : outcome exn Z :=
  match r with
  | [:: Num x] => Returns (trunc x)
  | [:: _] => Raises ValueError
  | _ => Raises TypeError
  end.

(** [f.iloc[i, j]] and [f.iloc[i]] *)
Definition iloc (f : frame) (i j : nat) : outcome exn cell :=
  if (i < size (rows f)) && (j < size (columns f))
  then Returns (nth NaN (nth [::] (rows f) i) j)
  else Raises IndexError.

Definition iloc_row (f : frame) (i : nat) : outcome exn (seq cell) :=
  if i < size (rows f) then Returns (nth [::] (rows f) i)
  else Raises IndexError.

(** The format [:0.3f] accepts a number and a missing value. *)
Definition format_f (c : cell) : outcome exn cell :=
  match c with
  | Obj _ => Raises ValueError
  | _ => Returns c
  end.

(** [pd.concat([f, g], axis=1)]: a new frame, the columns of [f] followed
    by those of [g], rows aligned on the index and missing cells [NaN]. *)
Definition pad (k : nat) (r : seq cell) : seq cell :=
  (r ++ nseq (k - size r) NaN)%SEQ.

Definition concat (f g : frame) : frame :=
  Frame (columns f ++ columns g)%SEQ
        [seq (pad (size (columns f)) (nth [::] (rows f) i) ++
              pad (size (columns g)) (nth [::] (rows g) i))%SEQ
        | i <- iota 0 (maxn (size (rows f)) (size (rows g)))].

(** [multmap(dfm, column, model)] *)
Definition multmap (dfm : ref) (column model : string) : M unit :=
  f <-- deref dfm ;;
  match positions column (columns f) with
  | [::] => raise (KeyError column)
  | _ =>
      emit (Plot dfm column) ;;;
      emit (SetTitle ("Spatial Multipliers for " ++ model)) ;;;
      emit SetAxisOff ;;;
      emit Show
  end.

(** The [if]/[elif] chain at the head of [nbreffect]. *)
Definition coli (mult : string) : outcome exn nat :=
  if String.eqb mult "Direct" then Returns 1
  else if String.eqb mult "EofNbrs" then Returns 2
  else if String.eqb mult "EonNbrs" then Returns 3
  else Raises (Exception "Invalid column").

(** [int(dfm[[mult]].idxmax())], the selection being a new frame. *)
Definition extremum (idx : frame -> outcome exn (seq nat)) (dfm : ref)
    (mult : string) : M nat :=
  f <-- deref dfm ;;
  sub <-- lift (getitem f mult) ;;
  r <-- alloc sub ;;
  sub' <-- deref r ;;
  ls <-- lift (idx sub') ;;
  lift (int_of_labels ls).

(** One [print] line of [nbreffect]. *)
Definition report (what : string) (dfm oid : ref) (i c : nat) : M unit :=
  f <-- deref dfm ;;
  v <-- lift (iloc f i c) ;;
  v' <-- lift (format_f v) ;;
  o <-- deref oid ;;
  r <-- lift (iloc_row o i) ;;
  id <-- lift (int_of_row r) ;;
  emit (Print what v' id).

(** [nbreffect(dfs, dfm, oid, mult, model)] *)
Definition nbreffect (dfs dfm oid : ref) (mult model : string) : M unit :=
  c <-- lift (coli mult) ;;
  imax <-- extremum idxmax dfm mult ;;
  report "maximum" dfm oid imax c ;;;
  imin <-- extremum idxmin dfm mult ;;
  report "minimum" dfm oid imin c ;;;
  f <-- deref dfs ;;
  g <-- deref dfm ;;
  dfmap <-- alloc (concat f g) ;;
  multmap dfmap mult model.

(** The documented column order of the multiplier table. *)
Definition table_columns : seq string :=
  [:: "id"; "Direct"; "EofNbrs"; "EonNbrs"].

(** Example frames: a geo data frame of two counties, the multiplier
    table of k-nearest neighbour weights for them, their identifiers,
    and the selection of the EonNbrs column. *)
Definition dfs0 : frame :=
  Frame [:: "FIPSNO"; "geometry"]
        [:: [:: Num 28001; Obj "POLYGON"]; [:: Num 28003; Obj "POLYGON"]].

Definition knn0 : frame :=
  Frame table_columns
        [:: [:: Num 28001; Num 0; Num 1; Num 0.8];
            [:: Num 28003; Num 0; Num 1; Num 1.2]]%Re.

Definition oid0 : frame :=
  Frame [:: "FIPSNO"] [:: [:: Num 28001]; [:: Num 28003]].

Definition sub0 : frame :=
  Frame [:: "EonNbrs"] [:: [:: Num 0.8]; [:: Num 1.2]]%Re.

(** The frames that the plot events of an output show. *)
Definition plots (evs : seq event) : seq ref :=
  pmap (fun e => if e is Plot p _ then Some p else None) evs.

(** From [s] to [s'] the store and the output only grow, and no map is
    drawn. *)
Definition grows (s s' : state) : Prop :=
  exists new evs,
    [/\ store s' = (store s ++ new)%SEQ,
        output s' = (output s ++ evs)%SEQ & plots evs = [::]].

Definition quiet {A} (m : M A) : Prop := forall s, grows s (m s).2.

(** From [s] to [s'] the store and the output only grow, and every map
    drawn shows a new object, the concatenation of [f] and [g]. *)
Definition merged_map (f g : frame) (s s' : state) : Prop :=
  exists new evs,
    [/\ store s' = (store s ++ new)%SEQ,
        output s' = (output s ++ evs)%SEQ &
        forall p, p \in plots evs ->
          size (store s) <= p /\ nth default_frame (store s') p = concat f g].

(** [for x in xs: body(x)] *)
Fixpoint for_each {A} (xs : seq A) (body : A -> M unit) : M unit :=
  match xs with
  | [::] => ret tt
  | x :: xs' => body x ;;; for_each xs' body
  end.

(** The loops of the notebook over a list of multipliers:
    [for eff in effects: nbreffect(dfs, dfm, oid, mult=eff, model=model)]. *)
Definition effects_loop (dfs dfm oid : ref) (effects : seq string)
    (model : string) : M unit :=
  for_each effects (fun eff => nbreffect dfs dfm oid eff model).

(** From [s] to [s'] the store and the output only grow, and every map
    drawn shows an object that the store gained, the concatenation of [f]
    and [g]. *)
Definition fresh_maps (f g : frame) (s s' : state) : Prop :=
  exists new evs,
    [/\ store s' = (store s ++ new)%SEQ,
        output s' = (output s ++ evs)%SEQ &
        forall p, p \in plots evs ->
          [/\ size (store s) <= p, p < size (store s') &
              nth default_frame (store s') p = concat f g]].



End Frames.

(* ===================================================================== *)
(** ** The real numbers as a MathComp field                               *)
(* ===================================================================== *)

(** Matrices, their product and their inverse come from MathComp, which
    asks for the field structure of the coefficients.  The operations are
    those of the Standard Library: [+] is [Rplus], [*] is [Rmult], the
    inverse is [Rinv]. *)

Local Open Scope R_scope.

Definition eqr (x y : R) : bool := if Req_dec_T x y then true else false.

Lemma eqrP : Equality.axiom eqr.
Proof. by move=> x y; rewrite /eqr; case: (Req_dec_T x y) => h; constructor. Qed.

HB.instance Definition _ := hasDecEq.Build R eqrP.

Definition pickr (P : pred R) (n : nat) : option R :=
  match excluded_middle_informative (exists x, P x) with
  | left ex => Some (proj1_sig (constructive_indefinite_description _ ex))
  | right _ => None
  end.

Lemma pickr_correct (P : pred R) n x : pickr P n = Some x -> P x.
Proof.
rewrite /pickr; case: excluded_middle_informative => // ex [<-].
exact: (proj2_sig (constructive_indefinite_description _ ex)).
Qed.

Lemma pickr_complete (P : pred R) : (exists x, P x) -> exists n, pickr P n.
Proof.
by move=> ex; exists 0%N; rewrite /pickr; case: excluded_middle_informative.
Qed.

Lemma pickr_ext (P Q : pred R) : P =1 Q -> pickr P =1 pickr Q.
Proof. by move=> /functional_extensionality ->. Qed.

HB.instance Definition _ :=
  hasChoice.Build R pickr_correct pickr_complete pickr_ext.

Lemma RplusA : associative Rplus.
Proof. by move=> x y t; rewrite Rplus_assoc. Qed.

HB.instance Definition _ :=
  GRing.isZmodule.Build R RplusA Rplus_comm Rplus_0_l Rplus_opp_l.

Lemma RmultA : associative Rmult.
Proof. by move=> x y t; rewrite Rmult_assoc. Qed.

Lemma RmultDl : left_distributive Rmult Rplus.
Proof. by move=> x y t; rewrite Rmult_plus_distr_r. Qed.

Lemma R1_neq0 : 1 != 0.
Proof. by apply/eqP; exact: R1_neq_R0. Qed.

HB.instance Definition _ :=
  GRing.Zmodule_isComNzRing.Build R RmultA Rmult_comm Rmult_1_l RmultDl R1_neq0.

Lemma RinvVf (x : R) : x != 0 -> / x * x = 1.
Proof. by move/eqP => h; rewrite Rinv_l. Qed.

HB.instance Definition _ := GRing.ComNzRing_isField.Build R RinvVf Rinv_0.

Local Close Scope R_scope.

(* ===================================================================== *)
(** ** The spatial multiplier table                                       *)
(* ===================================================================== *)

Module Multipliers.
Import GRing.Theory.
Local Open Scope ring_scope.

(** Modelled from the spec: one row of the table that [i_multipliers]
    returns, [id, Direct, EofNbrs, EonNbrs] (the field of the identifier
    is [unit_id], [id] being the identity function). *)
Record multiplier_record : Type := MultiplierRecord {
  unit_id : Z;
  Direct : R;
  EofNbrs : R;
  EonNbrs : R
}.

(** Modelled from the spec: the model names that [i_multipliers]
    recognizes. *)
Inductive model_id : Type := Slx | Kernel | Lag | Exponential | Power.

Definition parse_model (model : string) : option model_id :=
  if String.eqb model "slx" then Some Slx
  else if String.eqb model "kernel" then Some Kernel
  else if String.eqb model "lag" then Some Lag
  else if String.eqb model "exponential" then Some Exponential
  else if String.eqb model "power" then Some Power
  else None.

Section Table.
Variable n : nat.
Implicit Types (M W : 'M[R]_n) (i : 'I_n).

(** Modelled from the spec: the three multipliers of a unit in
    [i_multipliers], the diagonal element, the row sum and the column sum
    of the multiplier matrix, both sums without the diagonal. *)
Definition direct M i : R := M i i.
Definition effect_of_neighbors M i : R := \sum_(j < n | j != i) M i j.
Definition effect_on_neighbors M i : R := \sum_(j < n | j != i) M j i.

(** Modelled from the spec: the table of [i_multipliers], one record
    for each unit, in the order of the identifiers. *)
Definition table (ids : seq Z) M : seq multiplier_record :=
  [seq MultiplierRecord (nth 0%Z ids i) (direct M i)
         (effect_of_neighbors M i) (effect_on_neighbors M i)
  | i <- enum 'I_n].

(** Modelled from the spec: the parameterized weights of the
    exponential and power models of [i_multipliers].  The entries that a
    sparse matrix stores are the non-zero ones; a distance transformation
    applies to them only. *)
Definition exponential_matrix (coef : R) W : 'M[R]_n :=
  \matrix_(i, j) if W i j == 0 then 0 else exp (- coef * W i j)%Re.

Definition power_entry (coef x : R) : option R :=
  if x == 0 then Some 0 else Kernels.power_transform x coef.

Definition power_matrix (coef : R) W : option 'M[R]_n :=
  if [forall i, forall j, power_entry coef (W i j)]
  then Some (\matrix_(i, j) odflt 0 (power_entry coef (W i j)))
  else None.

(** Modelled from the spec: the multiplier matrix of each model of
    [i_multipliers], a function of spreg that the notebooks import and
    whose body is not among the sources.  [slx] and [kernel] take the
    weights as they are, [lag] takes the inverse of [I - coef W] and fails
    when there is none, [exponential] and [power] transform the stored
    distance fractions and reject a negative parameter. *)
Definition multiplier_matrix (mdl : model_id) (coef : R) W
  : outcome error 'M[R]_n :=
  match mdl with
  | Slx | Kernel => Returns W
  | Lag =>
      if 1%:M - coef *: W \in unitmx
      then Returns (invmx (1%:M - coef *: W))
      else Raises MatrixSingularity
  | Exponential =>
      if Frames.Rltb coef 0 then Raises InvalidParameter
      else Returns (exponential_matrix coef W)
  | Power =>
      if Frames.Rltb coef 0 then Raises InvalidParameter
      else if power_matrix coef W is Some M then Returns M
      else Raises InvalidParameter
  end.

End Table.

(** Modelled from the spec: [i_multipliers(w, coef, model, id)] of spreg,
    called by the notebooks and absent from the sources.  The weights
    come as an array of any shape [m] by [k]; a shape that is not square
    and an identifier vector of another length are refused before the
    model is looked at, an unknown model name is refused next, and the
    table is built from the multiplier matrix. *)
Definition i_multipliers (m k : nat) (w : 'M[R]_(m, k)) (coef : R)
    (model : string) (ids : seq Z) : outcome error (seq multiplier_record) :=
  match @eqP _ m k with
  | ReflectF _ => Raises DimensionMismatch
  | ReflectT e =>
      if size ids != m then Raises DimensionMismatch
      else match parse_model model with
           | None => Raises UnsupportedModel
           | Some mdl =>
               match multiplier_matrix mdl coef
                       (castmx (erefl m, esym e) w) with
               | Returns M => Returns (table ids M)
               | Raises err => Raises err
               end
           end
  end.

(** Column sum and column mean of a table ([describe()] reports the
    mean). *)
Definition total (xs : seq R) : R := foldr Rplus 0%Re xs.
Definition mean (xs : seq R) : R := (total xs / INR (size xs))%Re.


(** A numpy array given by its rows. *)
Definition of_rows (m k : nat) (rows : seq (seq R)) : 'M[R]_(m, k) :=
  \matrix_(i, j) nth 0 (nth [::] rows i) j.

(** Example weights: two units that are each other's only neighbour
    (row-standardized); distance weights that are not row-standardized,
    with the inverse of [I - 0.5 W]; row-standardized weights with a
    diagonal; the ring of four units of the specification's scenario;
    three units with row-standardized asymmetric weights, with the
    inverses of [I - 0.3 W] and of [I - 0.5 W]. *)
Definition w_pair : 'M[R]_2 := of_rows 2 2 [:: [:: 0; 1]; [:: 1; 0]]%Re.

Definition w_half : 'M[R]_2 :=
  of_rows 2 2 [:: [:: 0; 1 / 2]; [:: 1 / 2; 0]]%Re.

Definition m_half : 'M[R]_2 :=
  of_rows 2 2 [:: [:: 16 / 15; 4 / 15]; [:: 4 / 15; 16 / 15]]%Re.


Definition w_ring : 'M[R]_4 :=
  of_rows 4 4 [:: [:: 0; 1 / 2; 0; 1 / 2]; [:: 1 / 2; 0; 1 / 2; 0];
                  [:: 0; 1 / 2; 0; 1 / 2]; [:: 1 / 2; 0; 1 / 2; 0]]%Re.




End Multipliers.

(* ===================================================================== *)
(** ** The cell that sums the weights of the neighbours of one unit       *)
(* ===================================================================== *)

Module Neighbors.
Local Open Scope R_scope.

(** What the cell prints. *)
Inductive line : Type :=
  | NeighborList (nbrs : seq Z)
      (* print("neighbor list ",nbrs) *)
  | Cardinality (i u : Z) (w : R)
      (* print(f"for {i}, the number of neighbors is {u}, with weight {w:0.3f}") *)
  | TotalEffect (j : R).
      (* print(f"total effect on neighbors: {j:0.3f}") *)

Inductive exn : Type :=
  | KeyError (k : Z)
  | ZeroDivisionError.

(** A Python dict with integer keys, as [wq.neighbors] and
    [wq.cardinalities] are. *)
Definition dict (V : Type) : Type := seq (Z * V).

Fixpoint lookup {V} (d : dict V) (k : Z) : option V :=
  match d with
  | [::] => None
  | (k', v) :: d' => if Z.eqb k' k then Some v else lookup d' k
  end.

(** [1.0/u] for an integer [u]. *)
Definition inverse (u : Z) : outcome exn R :=
  if Z.eqb u 0 then Raises ZeroDivisionError else Returns (1 / IZR u).

(** The loop [for i in nbrs: u = cards[i]; print(...); j += 1.0/u], with
    the running total [j] and the lines printed so far. *)
Fixpoint loop (cards : dict Z) (nbrs : seq Z) (j : R) (out : seq line)
    : outcome exn R * seq line :=
  match nbrs with
  | [::] => (Returns j, out)
  | i :: rest =>
      match lookup cards i with
      | None => (Raises (KeyError i), out)
      | Some u =>
          match inverse u with
          | Raises e => (Raises e, out)
          | Returns w => loop cards rest (j + w) (rcons out (Cardinality i u w))
          end
      end
  end.

(** The whole cell, for the unit [key]. *)
Definition neighbor_weights (neighbors : dict (seq Z)) (cards : dict Z)
    (key : Z) : outcome exn unit * seq line :=
  match lookup neighbors key with
  | None => (Raises (KeyError key), [::])
  | Some nbrs =>
      match loop cards nbrs 0 [:: NeighborList nbrs] with
      | (Returns j, out) => (Returns tt, rcons out (TotalEffect j))
      | (Raises e, out) => (Raises e, out)
      end
  end.

(** The cardinality recorded for [i], 0 when there is none. *)
Definition card (cards : dict Z) (i : Z) : Z :=
  if lookup cards i is Some u then u else 0%Z.


(** Every unit of [nbrs] has a recorded cardinality other than 0. *)
Definition known (cards : dict Z) (nbrs : seq Z) : bool :=
  all (fun i => if lookup cards i is Some u then ~~ Z.eqb u 0 else false) nbrs.

(** The lines printed for the neighbours [nbrs]. *)
Definition lines (cards : dict Z) (nbrs : seq Z) : seq line :=
  [seq Cardinality i (card cards i) (1 / IZR (card cards i)) | i <- nbrs].

End Neighbors.

(* ===================================================================== *)
(** ** Rejection frequencies in the simulation cells                      *)
(* ===================================================================== *)

Module Simulation.
Local Open Scope R_scope.

(** [bestp = (best < p_value) * 1]: 1 where the p-value of a replication
    is below the threshold, 0 elsewhere. *)
Definition significant (p_value : R) (best : seq (seq R)) : seq (seq Z) :=
  [seq [seq (if Frames.Rltb x p_value then 1 else 0)%Z | x <- row]
  | row <- best].

(** [m.mean(axis=0)] of an array with [ncols] columns and at least one
    row: the mean of each column. *)
Definition mean_axis0 (ncols : nat) (m : seq (seq Z)) : seq R :=
  [seq Multipliers.total [seq IZR (nth 0%Z row j) | row <- m] / INR (size m)
  | j <- iota 0 ncols].

(** [mm = bestp.mean(axis=0)] *)
Definition mm (p_value : R) (ncols : nat) (best : seq (seq R)) : seq R :=
  mean_axis0 ncols (significant p_value best).

End Simulation.

(* ===================================================================== *)
(** ** Fixed-point arithmetic for the numeric bounds                      *)
(* ===================================================================== *)



(* ===================================================================== *)
(** * Properties of the kernels                                           *)
(* ===================================================================== *)

Section KernelFacts.
Import Kernels.
Local Open Scope R_scope.

(** The arrays of the notebook hold the values of the scalar functions on
    the grid. *)
Lemma epa_map : epa = [seq epanechnikov x | x <- z].
Proof. by rewrite /epa /z2 -map_comp. Qed.

Lemma quar_map : quar = [seq quartic x | x <- z].
Proof. by rewrite /quar /z2 -map_comp. Qed.

Lemma gs_map : gs = [seq gaussian x | x <- z].
Proof. by rewrite /gs /zz /z2 -!map_comp. Qed.

Lemma expon_map (i : R) :
  [seq Returns v | v <- expon i] = [seq exponential_transform x i | x <- z].
Proof. by rewrite /expon -map_comp. Qed.

Lemma pow_za_map (i : R) : pow_za i = [seq power_transform x i | x <- z].
Proof. by rewrite /pow_za -map_comp. Qed.

Lemma epanechnikov_unit (x : R) :
  0 <= x <= 1 -> 0 <= epanechnikov x <= 1.
Proof. by rewrite /epanechnikov => -[h0 h1]; nra. Qed.

Lemma quartic_sqr (x : R) : quartic x = epanechnikov x ^ 2.
Proof. by []. Qed.

Lemma quartic_le_epanechnikov (x : R) :
  0 <= x <= 1 -> quartic x <= epanechnikov x.
Proof.
move=> /epanechnikov_unit; rewrite quartic_sqr.
by move: (epanechnikov x) => u hu; nra.
Qed.










End KernelFacts.

Section KernelClaims.
Import Kernels.
Local Open Scope R_scope.

(** C4, as stated, fails: at z = 0.25 the quartic kernel is below the
    Epanechnikov kernel, not above it, and it is the square of the
    Epanechnikov value. *)
Lemma quartic_claim_counterexample :
  quartic 0.25 < epanechnikov 0.25 /\
  ~ (quartic 0.25 > epanechnikov 0.25) /\
  quartic 0.25 = epanechnikov 0.25 ^ 2.
Proof. by rewrite /quartic /epanechnikov; split; [|split]; lra. Qed.

(** C4, amended: for every z in [0,1] the quartic kernel is (1 - z^2)^2,
    which is the square of the Epanechnikov kernel and therefore at most
    the Epanechnikov kernel; it is strictly below it at 0.25 and at 0.75.
    The kernel that the quartic exceeds at 0.25 and falls below at 0.75
    is the triangular one. *)
Theorem quartic_epanechnikov_relation (x : R) (Hx : 0 <= x <= 1) :
  quartic x = (1 - x ^ 2) ^ 2 /\
  quartic x = epanechnikov x ^ 2 /\
  quartic x <= epanechnikov x /\
  quartic 0.25 < epanechnikov 0.25 /\
  quartic 0.75 < epanechnikov 0.75 /\
  triangular 0.25 < quartic 0.25 /\
  quartic 0.75 < triangular 0.75.
Proof.
do 2![split=> //]; split; first exact: quartic_le_epanechnikov.
by rewrite /quartic /epanechnikov /triangular; do !split; lra.
Qed.

Lemma quartic_epanechnikov_relation_witness :
  0 <= 0.5 <= 1 /\ quartic 0.5 <= epanechnikov 0.5.
Proof.
have h : 0 <= 0.5 <= 1 by lra.
split; first exact: h.
exact: (proj1 (proj2 (proj2 (quartic_epanechnikov_relation h)))).
Defined.



(** C6: for z in [0,1] and alpha >= 0 the power transformation is
    (1 - z)^alpha: the real power of a positive base, the iterated
    product when alpha is a natural number; it is 1 at alpha = 0 for
    every z, z = 1 included, and 0 at z = 1 for every alpha > 0. *)
Theorem power_transform_spec (x alpha : R)
    (Hx : 0 <= x <= 1) (Ha : 0 <= alpha) :
  (x < 1 -> power_transform x alpha = Some (Rpower (1 - x) alpha)) /\
  (forall n : nat, alpha = INR n ->
     power_transform x alpha = Some ((1 - x) ^ n)) /\
  power_transform x 0 = Some 1 /\
  power_transform 1 0 = Some 1 /\
  (0 < alpha -> power_transform 1 alpha = Some 0).
Proof.
rewrite /power_transform /float_power; split.
  move=> hx1; case: Req_dec_T => [h0|_] /=.
    by rewrite h0 /Rpower Rmult_0_l exp_0.
  by case: Rlt_dec => // h; case: h; lra.
split.
  move=> n hn; case: Req_dec_T => [h0|hne] /=.
    have -> : n = 0%N; last by [].
    by apply: INR_eq; rewrite -hn h0.
  have hn0 : (0 < n)%coq_nat.
    by apply: INR_lt; rewrite -hn /=; lra.
  case: Rlt_dec => [hpos|hnpos] /=; first by rewrite hn Rpower_pow.
  case: Req_dec_T => [h0|h] /=; last by case: h; lra.
  by case: Rlt_dec => [_|h] /=; [rewrite h0 pow_i|case: h; lra].
split; first by case: Req_dec_T.
split; first by case: Req_dec_T.
move=> hpos; case: (Req_dec_T alpha 0) => [h|_] /=; first by exfalso; lra.
case: (Rlt_dec 0 (1 - 1)) => [h|_] /=; first by exfalso; lra.
case: (Req_dec_T (1 - 1) 0) => [_|h] /=; last by case: h; lra.
by case: (Rlt_dec 0 alpha).
Qed.

Lemma power_transform_spec_witness :
  (0 <= 0.25 <= 1) /\ 0 <= 2 /\
  power_transform 0.25 2 = Some ((1 - 0.25) ^ 2).
Proof.
have hx : 0 <= 0.25 <= 1 by lra.
have ha : 0 <= 2 by lra.
split; first exact: hx.
split; first exact: ha.
apply: (proj1 (proj2 (power_transform_spec hx ha)) 2%N).
by rewrite /=; lra.
Defined.

(** C7, as stated, fails: with alpha = -1 the negative exponential
    returns a value and raises nothing. *)
Lemma exponential_negative_alpha_returns :
  exponential_transform 1 (-1) = Returns (exp 1) /\
  exponential_transform 1 (-1) <> Raises InvalidParameter.
Proof.
by rewrite /exponential_transform; split=> //; congr Returns; congr exp; lra.
Qed.

(** C7, amended: the negative exponential returns exp(-alpha z) and
    raises no error, whatever the sign of alpha; for alpha = 0 it is the
    constant 1. *)
Theorem exponential_transform_returns (x alpha : R) :
  exponential_transform x alpha = Returns (exp (- alpha * x)) /\
  exponential_transform x 0 = Returns 1.
Proof.
split=> //; rewrite /exponential_transform.
by congr Returns; rewrite Ropp_0 Rmult_0_l exp_0.
Qed.

End KernelClaims.

(* ===================================================================== *)
(** * Properties of [multmap] and [nbreffect]                            *)
(* ===================================================================== *)

Section FrameFacts.
Import Frames.
Local Open Scope string_scope.

Lemma grows_refl s : grows s s.
Proof. by exists [::], [::]; rewrite !cats0. Qed.

Lemma grows_trans s1 s2 s3 : grows s1 s2 -> grows s2 s3 -> grows s1 s3.
Proof.
move=> [n1 [e1 [h1 h2 h3]]] [n2 [e2 [k1 k2 k3]]].
exists (n1 ++ n2)%SEQ, (e1 ++ e2)%SEQ.
by rewrite k1 h1 k2 h2 !catA /plots pmap_cat -/(plots e1) -/(plots e2) h3 k3.
Qed.

Lemma quiet_ret A (x : A) : quiet (ret x).
Proof. by move=> s; exact: grows_refl. Qed.

Lemma quiet_raise A e : quiet (@raise A e).
Proof. by move=> s; exact: grows_refl. Qed.

Lemma quiet_lift A (o : outcome exn A) : quiet (lift o).
Proof. by move=> s; exact: grows_refl. Qed.

Lemma quiet_deref r : quiet (deref r).
Proof. by move=> s; exact: grows_refl. Qed.

Lemma quiet_alloc f : quiet (alloc f).
Proof. by move=> s; exists [:: f], [::]; rewrite /= cats0 cats1. Qed.

Lemma quiet_print what v i : quiet (emit (Print what v i)).
Proof. by move=> s; exists [::], [:: Print what v i]; rewrite /= cats0 cats1. Qed.

Lemma quiet_bind A B (m : M A) (k : A -> M B) :
  quiet m -> (forall x, quiet (k x)) -> quiet (bind m k).
Proof.
move=> hm hk s; rewrite /bind; have := hm s.
case: (m s) => [[x|e] s1] //= h1.
exact: grows_trans h1 (hk x s1).
Qed.

Lemma quiet_extremum idx dfm mult : quiet (extremum idx dfm mult).
Proof.
rewrite /extremum.
apply: quiet_bind (quiet_deref _) _ => f.
apply: quiet_bind (quiet_lift _) _ => sub.
apply: quiet_bind (quiet_alloc _) _ => r.
apply: quiet_bind (quiet_deref _) _ => sub'.
apply: quiet_bind (quiet_lift _) _ => ls.
exact: quiet_lift.
Qed.

Lemma quiet_report what dfm oid i c : quiet (report what dfm oid i c).
Proof.
rewrite /report.
apply: quiet_bind (quiet_deref _) _ => f.
apply: quiet_bind (quiet_lift _) _ => v.
apply: quiet_bind (quiet_lift _) _ => v'.
apply: quiet_bind (quiet_deref _) _ => o.
apply: quiet_bind (quiet_lift _) _ => r.
apply: quiet_bind (quiet_lift _) _ => id.
exact: quiet_print.
Qed.


Lemma run_bind A B (m : M A) (k : A -> M B) (P : state -> Prop) s :
  (forall e s1, m s = (Raises e, s1) -> P s1) ->
  (forall x s1, m s = (Returns x, s1) -> P (k x s1).2) ->
  P (bind m k s).2.
Proof.
by rewrite /bind; case: (m s) => [[x|e] s1] hr hk; [exact: hk|exact: hr].
Qed.

Lemma quiet_run A (m : M A) s r s1 : quiet m -> m s = (r, s1) -> grows s s1.
Proof. by move=> hm hs; have := hm s; rewrite hs. Qed.

Lemma grows_merged f g s s' : grows s s' -> merged_map f g s s'.
Proof.
by move=> [new [evs [h1 h2 h3]]]; exists new, evs; split=> // p; rewrite h3.
Qed.

Lemma multmap_store r column model s :
  store (multmap r column model s).2 = store s.
Proof.
rewrite /multmap /bind /deref /=.
by case: (positions _ _).
Qed.

Lemma multmap_plots r column model s :
  exists evs, output (multmap r column model s).2 = (output s ++ evs)%SEQ /\
              forall p, p \in plots evs -> p = r.
Proof.
rewrite /multmap /bind /deref /=.
case: (positions _ _) => [|p0 ps] /=.
  by exists [::]; rewrite cats0.
exists [:: Plot r column; SetTitle ("Spatial Multipliers for " ++ model);
           SetAxisOff; Show].
by rewrite -!cats1 -!catA /=; split=> // p; rewrite inE => /eqP.
Qed.

Lemma tail_merged dfs dfm mult model s s1 :
  dfs < size (store s) -> dfm < size (store s) -> grows s s1 ->
  merged_map (nth default_frame (store s) dfs) (nth default_frame (store s) dfm)
    s (bind (deref dfs) (fun f => bind (deref dfm) (fun g =>
         bind (alloc (concat f g)) (fun dfmap =>
           multmap dfmap mult model))) s1).2.
Proof.
move=> hs hm [new [evs [h1 h2 h3]]].
rewrite /bind /deref /alloc /=.
set f := nth _ (store s1) dfs; set g := nth _ (store s1) dfm.
have -> : nth default_frame (store s) dfs = f by rewrite /f h1 nth_cat hs.
have -> : nth default_frame (store s) dfm = g by rewrite /g h1 nth_cat hm.
set s2 := State _ _.
have [evs2 [ho hp]] := multmap_plots (size (store s1)) mult model s2.
exists (new ++ [:: concat f g])%SEQ, (evs ++ evs2)%SEQ.
rewrite multmap_store ho /= h2 -catA -cats1 h1 -catA; split=> // p.
rewrite /plots pmap_cat -/(plots evs) -/(plots evs2) h3 /= => /hp ->.
rewrite h1 size_cat leq_addr; split=> //.
by rewrite catA nth_cat size_cat ltnn subnn.
Qed.

(** C10: a call of [nbreffect] on frames of the store leaves every object
    that was in the store as it was, the inputs [dfs], [dfm] and [oid]
    among them; every map it draws shows an object allocated by the call,
    the concatenation of [dfs] and [dfm]; and [multmap] leaves the store
    as it is. *)
Theorem nbreffect_keeps_inputs (dfs dfm oid : ref) (mult model : string)
    (s : state)
    (Hdfs : dfs < size (store s)) (Hdfm : dfm < size (store s))
    (Hoid : oid < size (store s)) :
  let s' := (nbreffect dfs dfm oid mult model s).2 in
  [/\ forall r, r < size (store s) ->
        nth default_frame (store s') r = nth default_frame (store s) r,
      merged_map (nth default_frame (store s) dfs)
                 (nth default_frame (store s) dfm) s s' &
      forall r column mdl t, store (multmap r column mdl t).2 = store t].
Proof.
have hmm : merged_map (nth default_frame (store s) dfs)
             (nth default_frame (store s) dfm) s
             (nbreffect dfs dfm oid mult model s).2.
  rewrite /nbreffect.
  apply: run_bind => [e s1|c s1] /(quiet_run (@quiet_lift _ _)) g1.
    exact: grows_merged.
  apply: run_bind => [e s2|imax s2] /(quiet_run (@quiet_extremum _ _ _)) g2.
    by apply: grows_merged; exact: grows_trans g1 g2.
  apply: run_bind => [e s3|[] s3] /(quiet_run (@quiet_report _ _ _ _ _)) g3.
    by apply: grows_merged; exact: grows_trans (grows_trans g1 g2) g3.
  apply: run_bind => [e s4|imin s4] /(quiet_run (@quiet_extremum _ _ _)) g4.
    apply: grows_merged.
    exact: grows_trans (grows_trans (grows_trans g1 g2) g3) g4.
  apply: run_bind => [e s5|[] s5] /(quiet_run (@quiet_report _ _ _ _ _)) g5.
    apply: grows_merged.
    exact: grows_trans (grows_trans (grows_trans (grows_trans g1 g2) g3) g4) g5.
  apply: tail_merged => //.
  exact: grows_trans (grows_trans (grows_trans (grows_trans g1 g2) g3) g4) g5.
move=> s'; split=> //; last exact: multmap_store.
by move=> r hr; case: hmm => new [evs [h1 _ _]]; rewrite /s' h1 nth_cat hr.
Qed.

Lemma nbreffect_keeps_inputs_witness :
  let s := State [:: dfs0; knn0; oid0] [::] in
  let s' := (nbreffect 0 1 2 "EonNbrs" "slx" s).2 in
  [/\ forall r, r < size (store s) ->
        nth default_frame (store s') r = nth default_frame (store s) r,
      merged_map (nth default_frame (store s) 0)
                 (nth default_frame (store s) 1) s s' &
      forall r column mdl t, store (multmap r column mdl t).2 = store t].
Proof.
move=> s.
exact: (@nbreffect_keeps_inputs 0 1 2 "EonNbrs" "slx" s
          (isT : 0 < size (store s)) (isT : 1 < size (store s))
          (isT : 2 < size (store s))).
Defined.

Lemma coli_invalid mult :
  mult <> "Direct" -> mult <> "EofNbrs" -> mult <> "EonNbrs" ->
  coli mult = Raises (Exception "Invalid column").
Proof.
by rewrite /coli => /String.eqb_neq -> /String.eqb_neq -> /String.eqb_neq ->.
Qed.


Lemma Rltb_true (x y : R) : (x < y)%Re -> Rltb x y = true.
Proof. by rewrite /Rltb; case: (Rlt_dec x y). Qed.

Lemma Rltb_false (x y : R) : ~ (x < y)%Re -> Rltb x y = false.
Proof. by rewrite /Rltb; case: (Rlt_dec x y). Qed.

Lemma trunc_IZR (k : Z) : (0 <= k)%Z -> trunc (IZR k) = k.
Proof.
move=> /IZR_le hk; rewrite /trunc.
case: (Rle_dec 0 (IZR k)) => [_|h] /=; last by case: h.
by symmetry; apply: Int_part_spec; split; lra.
Qed.

Local Arguments Rltb : simpl never.
Local Arguments trunc : simpl never.
Local Arguments IZR : simpl never.

(** A run: on the two-county table the call prints the maximum and the
    minimum of EonNbrs with their identifiers and draws the map of the
    concatenated frame, a new object of the store. *)
Example nbreffect_example :
  nbreffect 0 1 2 "EonNbrs" "slx" (State [:: dfs0; knn0; oid0] [::]) =
  (Returns tt,
   State [:: dfs0; knn0; oid0; sub0; sub0; concat dfs0 knn0]
         [:: Print "maximum" (Num 1.2%Re) 28003;
             Print "minimum" (Num 0.8%Re) 28001;
             Plot 5 "EonNbrs"; SetTitle "Spatial Multipliers for slx";
             SetAxisOff; Show]).
Proof.
have h1 : (0.8 < 1.2)%Re by lra.
have h2 : ~ (1.2 < 0.8)%Re by lra.
rewrite /nbreffect /bind /lift /extremum /report /bind /lift /deref /alloc /=.
rewrite /idxmax /idx_column /= (Rltb_true h1) /= /emit /= trunc_IZR //=.
by rewrite /idxmin /idx_column /= (Rltb_false h2) /= trunc_IZR.
Qed.


End FrameFacts.

(* ===================================================================== *)
(** * Properties of the multiplier table                                  *)
(* ===================================================================== *)

Section MultiplierFacts.
Import GRing.Theory Multipliers.
Local Open Scope ring_scope.

Lemma RplusE (x y : R) : Rplus x y = x + y.
Proof. by []. Qed.
Lemma RmultE (x y : R) : Rmult x y = x * y.
Proof. by []. Qed.
Lemma RoppE (x : R) : Ropp x = - x.
Proof. by []. Qed.
Lemma RinvE (x : R) : Rinv x = x^-1.
Proof. by []. Qed.

Lemma natmulR (x : R) (n : nat) : x *+ n = (INR n * x)%Re.
Proof.
elim: n => [|n ih]; first by rewrite mulr0n /= Rmult_0_l.
by rewrite mulrS ih S_INR Rmult_plus_distr_r Rmult_1_l Rplus_comm.
Qed.

Lemma total_sum (n : nat) (f : 'I_n -> R) :
  total [seq f i | i <- enum 'I_n] = \sum_(i < n) f i.
Proof.
rewrite -[RHS]big_enum /= -(big_map f xpredT id) /=.
by elim: [seq f i | i <- enum 'I_n] => [|x xs ih]; rewrite ?big_nil ?big_cons //= ih.
Qed.

Section Square.
Variables (n : nat) (ids : seq Z).
Implicit Types (M W : 'M[R]_n) (i : 'I_n).

Lemma Direct_table M :
  [seq Direct r | r <- table ids M] = [seq direct M i | i <- enum 'I_n].
Proof. by rewrite /table -map_comp. Qed.

Lemma EofNbrs_table M :
  [seq EofNbrs r | r <- table ids M] =
  [seq effect_of_neighbors M i | i <- enum 'I_n].
Proof. by rewrite /table -map_comp. Qed.


Lemma size_table M : size (table ids M) = n.
Proof. by rewrite size_map size_enum_ord. Qed.

Lemma row_split M i : direct M i + effect_of_neighbors M i = \sum_j M i j.
Proof. by rewrite /direct /effect_of_neighbors [RHS](bigD1 i). Qed.



Lemma mean_sum (f : 'I_n -> R) :
  mean [seq f i | i <- enum 'I_n] = ((\sum_(i < n) f i) / INR n)%Re.
Proof. by rewrite /mean total_sum size_map size_enum_ord. Qed.

Lemma i_multipliers_square W coef model :
  size ids = n ->
  i_multipliers W coef model ids =
  match parse_model model with
  | None => Raises UnsupportedModel
  | Some mdl =>
      match multiplier_matrix mdl coef W with
      | Returns M => Returns (table ids M)
      | Raises err => Raises err
      end
  end.
Proof.
move=> hs; rewrite /i_multipliers; case: eqP => // e.
by rewrite hs eqxx /= castmx_id.
Qed.

Lemma row_sums_inverse W (coef : R) :
  (forall i, \sum_j W i j = 1) -> 1%:M - coef *: W \in unitmx ->
  forall i, \sum_j invmx (1%:M - coef *: W) i j = (1 - coef)^-1.
Proof.
move=> hrow hu i; set A := 1%:M - coef *: W.
pose u : 'cV[R]_n := const_mx 1.
have hWu : W *m u = u.
  apply/matrixP => k j; rewrite !mxE -[RHS](hrow k).
  by apply: eq_bigr => l _; rewrite mxE mulr1.
have hAu : A *m u = (1 - coef) *: u.
  by rewrite /A mulmxBl mul1mx -scalemxAl hWu scalerBl scale1r.
have hMu : (1 - coef) *: (invmx A *m u) = u.
  by rewrite scalemxAr -hAu mulmxA mulVmx // mul1mx.
have hs : \sum_j invmx A i j = (invmx A *m u) i ord0.
  by rewrite mxE; apply: eq_bigr => l _; rewrite mxE mulr1.
have /matrixP /(_ i ord0) := hMu; rewrite mxE -hs mxE => h.
have hne : 1 - coef != 0.
  by apply/eqP => h0; move: h; rewrite h0 mul0r => /esym /eqP; rewrite oner_eq0.
by rewrite -[LHS](mulKf hne) h mulr1.
Qed.

End Square.


Section MultiplierClaims.
Local Open Scope string_scope.

Ltac to_reals :=
  rewrite ?mulr1n ?mulr0n /GRing.zero /GRing.one /GRing.add /GRing.mul
          /GRing.opp /GRing.inv /=.

Lemma invmx_right (n : nat) (A B : 'M[R]_n) :
  A *m B = 1%:M -> A \in unitmx /\ invmx A = B.
Proof.
move=> hAB; have [hA _] := mulmx1_unit hAB; split=> //.
by rewrite -[LHS]mulmx1 -hAB mulmxA mulVmx // mul1mx.
Qed.

Lemma mean_pair (x y : R) (n : nat) :
  (0 < n)%N -> (x / INR n + y / INR n = (x + y) / INR n)%Re.
Proof. by move=> _; rewrite /Rdiv Rmult_plus_distr_r. Qed.

Lemma INR_pos_neq0 (n : nat) : (0 < n)%N -> INR n <> 0%Re.
Proof. by move=> /ltP hn; apply: not_0_INR => h; rewrite h in hn; inversion hn. Qed.

(** C1, amended: for weights whose rows each sum to 1, at least one unit
    and every coefficient for which I - coef W is invertible, the lag
    model returns a table of n rows in which the mean of Direct plus the
    mean of EofNbrs is 1/(1 - coef), exactly in real arithmetic. *)
Theorem lag_average_total_impact (n : nat) (W : 'M[R]_n) (coef : R)
    (ids : seq Z)
    (Hn : (0 < n)%N) (Hids : size ids = n)
    (Hrow : forall i, \sum_j W i j = 1)
    (Hinv : 1%:M - coef *: W \in unitmx) :
  exists t,
    [/\ i_multipliers W coef "lag" ids = Returns t, size t = n &
        (mean [seq Direct r | r <- t] + mean [seq EofNbrs r | r <- t]
         = 1 / (1 - coef))%Re].
Proof.
exists (table ids (invmx (1%:M - coef *: W))); split.
- by rewrite i_multipliers_square //= Hinv.
- exact: size_table.
rewrite Direct_table EofNbrs_table !mean_sum mean_pair //.
have -> : ((\sum_(i < n) direct (invmx (1%:M - coef *: W)) i) +
           (\sum_(i < n) effect_of_neighbors (invmx (1%:M - coef *: W)) i))%Re
          = (INR n * / (1 - coef))%Re.
  rewrite RplusE -big_split /=.
  rewrite (eq_bigr _ (fun i _ => row_split _ i)).
  rewrite (eq_bigr _ (fun i _ => row_sums_inverse Hrow Hinv i)).
  by rewrite sumr_const card_ord natmulR.
rewrite /Rdiv Rmult_1_l Rinv_r_simpl_m //.
exact: INR_pos_neq0.
Qed.


Ltac by_entries :=
  let i := fresh "i" in
  let j := fresh "j" in
  apply/matrixP; move=> i j; rewrite !mxE ?big_ord_recl ?big_ord0 ?mxE /=;
  case: i => [[|[|[|?]]] ?] //; case: j => [[|[|[|?]]] ?] //=;
  to_reals; lra.

Lemma w_half_inverse : (1%:M - (1 / 2)%Re *: w_half) *m m_half = 1%:M.
Proof. by_entries. Qed.

Lemma w_pair_rows (i : 'I_2) : \sum_j w_pair i j = 1.
Proof.
rewrite !big_ord_recl big_ord0 !mxE /=.
by case: i => [[|[|i]] hi] //=; to_reals; lra.
Qed.

Lemma w_pair_unit : 1%:M - (1 / 2)%Re *: w_pair \in unitmx.
Proof.
pose B : 'M[R]_2 := of_rows 2 2 [:: [:: 4 / 3; 2 / 3]; [:: 2 / 3; 4 / 3]]%Re.
have h : (1%:M - (1 / 2)%Re *: w_pair) *m B = 1%:M by by_entries.
by case: (invmx_right h).
Qed.

Lemma lag_average_total_impact_witness :
  exists t,
    [/\ i_multipliers w_pair (1 / 2)%Re "lag" [:: 1; 2]%Z = Returns t,
        size t = 2%N &
        (mean [seq Direct r | r <- t] + mean [seq EofNbrs r | r <- t]
         = 1 / (1 - 1 / 2))%Re].
Proof.
exact: (@lag_average_total_impact 2 w_pair (1 / 2)%Re [:: 1; 2]%Z
          (isT : (0 < 2)%N) (erefl : size [:: 1; 2]%Z = 2%N)
          w_pair_rows w_pair_unit).
Defined.

(** C1, as stated, fails: for distance weights that are not
    row-standardized the calculator returns a table, and at coef = 0.5
    the two means add up to 4/3, not to 1/(1 - 0.5) = 2. *)
Lemma lag_total_impact_counterexample :
  exists t,
    [/\ i_multipliers w_half 0.5%Re "lag" [:: 1; 2]%Z = Returns t,
        (mean [seq Direct r | r <- t] + mean [seq EofNbrs r | r <- t]
         = 4 / 3)%Re &
        (Rabs (mean [seq Direct r | r <- t] + mean [seq EofNbrs r | r <- t]
               - 1 / (1 - 0.5)) > 0.000001)%Re].
Proof.
have h05 : 0.5%Re = (1 / 2)%Re by lra.
have [hu hinv] := invmx_right w_half_inverse.
exists (table [:: 1; 2]%Z m_half).
have hm : (mean [seq Direct r | r <- table [:: 1; 2]%Z m_half] +
           mean [seq EofNbrs r | r <- table [:: 1; 2]%Z m_half] = 4 / 3)%Re.
  rewrite Direct_table EofNbrs_table !mean_sum.
  rewrite /direct /effect_of_neighbors !big_ord_recl !big_ord0.
  rewrite !(big_mkcond (fun j => j != _)) !big_ord_recl !big_ord0 !mxE /=.
  by to_reals; lra.
split=> //.
- by rewrite i_multipliers_square //= h05 hu hinv.
- by rewrite hm; rewrite /Rabs; case: Rcase_abs => ?; lra.
Qed.




(** The scenario of the specification: on the row-standardized ring of
    four units the slx model gives Direct 0, EofNbrs 1 and EonNbrs 1 for
    every unit. *)
Example ring_slx_example :
  i_multipliers w_ring 0 "slx" [:: 1; 2; 3; 4]%Z =
  Returns [:: MultiplierRecord 1 0 1 1; MultiplierRecord 2 0 1 1;
              MultiplierRecord 3 0 1 1; MultiplierRecord 4 0 1 1]%Re.
Proof.
rewrite i_multipliers_square //=; congr Returns.
rewrite /table !enum_ordSl enum_ord0 /= /direct /effect_of_neighbors
        /effect_on_neighbors.
rewrite !(big_mkcond (fun j => j != _)) !big_ord_recl !big_ord0 !mxE /=.
by congr [:: _; _; _; _]; congr MultiplierRecord; to_reals; lra.
Qed.








End MultiplierClaims.

End MultiplierFacts.
(* ===================================================================== *)
(** * Further properties of [nbreffect] and of the loops that call it     *)
(* ===================================================================== *)

Section FrameExtras.
Import Frames.
Local Open Scope string_scope.

Lemma int_of_labels_inv ls i : int_of_labels ls = Returns i -> ls = [:: i].
Proof.
by case: ls => [|l [|l' ls]] //= [->].
Qed.

Lemma extremum_inv idx dfm mult s i s1 :
  extremum idx dfm mult s = (Returns i, s1) ->
  exists sub,
    [/\ getitem (nth default_frame (store s) dfm) mult = Returns sub,
        idx sub = Returns [:: i] &
        s1 = State (rcons (store s) sub) (output s)].
Proof.
rewrite /extremum /bind /deref /lift /alloc /=.
case hg : (getitem _ mult) => [sub|e] //=.
rewrite nth_rcons ltnn eqxx.
case hi : (idx sub) => [ls|e] //=.
case: ls hi => [|l [|l' ls]] //= hi [<- <-].
by exists sub.
Qed.

Lemma extremum_raises idx dfm mult s e s1 :
  extremum idx dfm mult s = (Raises e, s1) -> output s1 = output s.
Proof.
rewrite /extremum /bind /deref /lift /alloc /=.
case hg : (getitem _ mult) => [sub|e'] /=; last by case=> _ <-.
rewrite nth_rcons ltnn eqxx.
case hi : (idx sub) => [ls|e'] /=; last by case=> _ <-.
by case: ls hi => [|l [|l' ls]] //= hi [_ <-].
Qed.

Lemma report_inv what dfm oid i c s s1 :
  report what dfm oid i c s = (Returns tt, s1) ->
  exists v r id,
    [/\ iloc (nth default_frame (store s) dfm) i c = Returns v,
        format_f v = Returns v,
        iloc_row (nth default_frame (store s) oid) i = Returns r,
        int_of_row r = Returns id &
        s1 = State (store s) (rcons (output s) (Print what v id))].
Proof.
rewrite /report /bind /deref /lift /emit /=.
case hv : (iloc _ i c) => [v|e] //=.
case hf : (format_f v) => [v'|e] //=.
case hr : (iloc_row _ i) => [r|e] //=.
case hid : (int_of_row r) => [id|e] //= [<-].
have hvv : v' = v by move: hf; case: (v) => [x||o'] //= [].
by rewrite hvv in hf *; exists v, r, id.
Qed.

Lemma report_raises what dfm oid i c s e s1 :
  report what dfm oid i c s = (Raises e, s1) -> s1 = s.
Proof.
rewrite /report /bind /deref /lift /emit /=.
case hv : (iloc _ i c) => [v|e'] /=; last by case.
case hf : (format_f v) => [v'|e'] /=; last by case.
case hr : (iloc_row _ i) => [r|e'] /=; last by case.
by case hid : (int_of_row r) => [id|e'] //= [].
Qed.

Lemma multmap_inv r column model s s' :
  multmap r column model s = (Returns tt, s') ->
  s' = State (store s)
         (output s ++ [:: Plot r column;
                          SetTitle ("Spatial Multipliers for " ++ model);
                          SetAxisOff; Show])%SEQ.
Proof.
rewrite /multmap /bind /deref /emit /=.
case: (positions _ _) => [|p ps] //= [<-].
by rewrite -!cats1 -!catA.
Qed.

Lemma nbreffect_inv dfs dfm oid mult model s s' :
  dfs < size (store s) -> dfm < size (store s) -> oid < size (store s) ->
  nbreffect dfs dfm oid mult model s = (Returns tt, s') ->
  let d := nth default_frame (store s) dfm in
  let o := nth default_frame (store s) oid in
  exists c sub imax imin,
    [/\ coli mult = Returns c, getitem d mult = Returns sub,
        idxmax sub = Returns [:: imax] & idxmin sub = Returns [:: imin]] /\
    exists vmax idmax vmin idmin,
      [/\ iloc d imax c = Returns vmax /\ format_f vmax = Returns vmax,
          iloc d imin c = Returns vmin /\ format_f vmin = Returns vmin,
          (exists2 r, iloc_row o imax = Returns r & int_of_row r = Returns idmax)
          /\ (exists2 r, iloc_row o imin = Returns r &
                         int_of_row r = Returns idmin),
          store s' = (store s ++
                      [:: sub; sub; concat (nth default_frame (store s) dfs) d])%SEQ
        & output s' = (output s ++
            [:: Print "maximum" vmax idmax; Print "minimum" vmin idmin;
                Plot (size (store s)).+2 mult;
                SetTitle ("Spatial Multipliers for " ++ model);
                SetAxisOff; Show])%SEQ].
Proof.
move=> hs hm ho; rewrite /nbreffect {1}/bind /lift.
case hc : (coli mult) => [c|e] //.
rewrite {1}/bind; case h1 : (extremum idxmax dfm mult s) => [[imax|e] s1] //.
have [sub [hg hi1 hs1]] := extremum_inv h1.
rewrite {1}/bind; case h2 : (report _ dfm oid imax c s1) => [[[]|e] s2] //.
have [vmax [rmax [idmax [hv1 hf1 hr1 hd1 hs2]]]] := report_inv h2.
rewrite {1}/bind; case h3 : (extremum idxmin dfm mult s2) => [[imin|e] s3] //.
have [sub' [hg' hi2 hs3]] := extremum_inv h3.
rewrite {1}/bind; case h4 : (report _ dfm oid imin c s3) => [[[]|e] s4] //.
have [vmin [rmin [idmin [hv2 hf2 hr2 hd2 hs4]]]] := report_inv h4.
have e1 r (st : seq frame) x : r < size st ->
    nth default_frame (rcons st x) r = nth default_frame st r.
  by move=> hr; rewrite nth_rcons hr.
have l1 r : r < size (store s) -> r < size (rcons (store s) sub).
  by move=> hr; rewrite size_rcons ltnS ltnW.
subst s1 s2 s3 s4; move: hv1 hr1 hv2 hr2 hg' => /=.
rewrite !e1 ?l1 // hg => hv1 hr1 hv2 hr2 [hsub]; rewrite -hsub in hi2 *.
rewrite /bind /deref /alloc /= !e1 ?l1 //.
move=> /multmap_inv ->.
exists c, sub, imax, imin; split; first by [].
exists vmax, idmax, vmin, idmin; split=> //.
- by split; [exists rmax|exists rmin].
- by rewrite /= -!cats1 -!catA.
- by rewrite /= !size_rcons -!cats1 -!catA.
Qed.

(** X1: a call that returns has printed exactly two lines, the maximum
    first and the minimum second, has drawn exactly one map, titled
    "Spatial Multipliers for " followed by the model, of the frame it
    allocated last, and has added three frames to the store: the column
    selection twice and the concatenation of [dfs] and [dfm]. *)
Theorem nbreffect_returns_shape (dfs dfm oid : ref) (mult model : string)
    (s s' : state)
    (Hdfs : dfs < size (store s)) (Hdfm : dfm < size (store s))
    (Hoid : oid < size (store s))
    (Hret : nbreffect dfs dfm oid mult model s = (Returns tt, s')) :
  exists sub vmax idmax vmin idmin,
    [/\ getitem (nth default_frame (store s) dfm) mult = Returns sub,
        store s' = (store s ++
           [:: sub; sub; concat (nth default_frame (store s) dfs)
                                (nth default_frame (store s) dfm)])%SEQ &
        output s' = (output s ++
           [:: Print "maximum" vmax idmax; Print "minimum" vmin idmin;
               Plot (size (store s)).+2 mult;
               SetTitle ("Spatial Multipliers for " ++ model);
               SetAxisOff; Show])%SEQ].
Proof.
have [c [sub [imax [imin [[_ hg _ _]]]]]] := nbreffect_inv Hdfs Hdfm Hoid Hret.
move=> [vmax [idmax [vmin [idmin [_ _ _ hst hout]]]]].
by exists sub, vmax, idmax, vmin, idmin.
Qed.

Lemma nbreffect_returns_shape_witness :
  exists sub vmax idmax vmin idmin,
    [/\ getitem knn0 "EonNbrs" = Returns sub,
        [:: dfs0; knn0; oid0; sub0; sub0; concat dfs0 knn0] =
        [:: dfs0; knn0; oid0; sub; sub; concat dfs0 knn0] &
        [:: Print "maximum" (Num 1.2%Re) 28003;
            Print "minimum" (Num 0.8%Re) 28001;
            Plot 5 "EonNbrs"; SetTitle "Spatial Multipliers for slx";
            SetAxisOff; Show] =
        [:: Print "maximum" vmax idmax; Print "minimum" vmin idmin;
            Plot 5 "EonNbrs"; SetTitle "Spatial Multipliers for slx";
            SetAxisOff; Show]].
Proof.
exact: (@nbreffect_returns_shape 0 1 2 "EonNbrs" "slx"
          (State [:: dfs0; knn0; oid0] [::]) _ isT isT isT nbreffect_example).
Defined.

Section ArgBest.
Variables (better : R -> R -> bool) (ge : R -> R -> Prop).
Hypothesis ge_refl : forall x, ge x x.
Hypothesis ge_trans : forall x y t, ge x y -> ge y t -> ge x t.
Hypothesis better_ge : forall x b, better x b = true -> ge x b.
Hypothesis worse_ge : forall x b, better x b = false -> ge b x.



End ArgBest.

Section ArgFirst.
Variables (better : R -> R -> bool) (ge gt : R -> R -> Prop).
Hypothesis gt_trans : forall x y t, gt x y -> gt y t -> gt x t.
Hypothesis gt_ge : forall x y t, gt x y -> ge y t -> gt x t.
Hypothesis better_gt : forall x b, better x b = true -> gt x b.
Hypothesis worse_ge : forall x b, better x b = false -> ge b x.



End ArgFirst.

Lemma Rltb_ltP (x y : R) : Rltb x y = true -> (x < y)%Re.
Proof. by rewrite /Rltb; case: (Rlt_dec x y). Qed.










(** X3: with a valid name, a multiplier frame without a column of that
    name makes the call raise KeyError before anything is printed,
    drawn or allocated; a frame that has the column but no row makes it
    raise ValueError with nothing printed and nothing drawn. *)
Theorem nbreffect_no_data (dfs dfm oid : ref) (mult model : string)
    (s : state) (c : nat) (Hc : coli mult = Returns c) :
  let d := nth default_frame (store s) dfm in
  (positions mult (columns d) = [::] ->
   nbreffect dfs dfm oid mult model s = (Raises (KeyError mult), s)) /\
  (positions mult (columns d) <> [::] -> rows d = [::] ->
   exists sub,
     nbreffect dfs dfm oid mult model s =
       (Raises ValueError, State (rcons (store s) sub) (output s))).
Proof.
move=> d; split.
  move=> hp; rewrite /nbreffect /bind /lift Hc /extremum /bind /deref /lift /=.
  by rewrite /getitem -/d hp.
move=> hp hr.
rewrite /nbreffect /bind /lift Hc /extremum /bind /deref /lift /alloc /=.
rewrite /getitem -/d hr; case: (positions _ _) hp => [|p ps] // _ /=.
rewrite nth_rcons ltnn eqxx /=.
by eexists.
Qed.

Lemma nbreffect_no_data_witness :
  nbreffect 0 1 2 "Direct" "slx" (State [:: dfs0; dfs0; oid0] [::]) =
    (Raises (KeyError "Direct"), State [:: dfs0; dfs0; oid0] [::]) /\
  exists sub,
    nbreffect 0 1 2 "Direct" "slx"
      (State [:: dfs0; Frame table_columns [::]; oid0] [::]) =
    (Raises ValueError,
     State (rcons [:: dfs0; Frame table_columns [::]; oid0] sub) [::]).
Proof.
split.
- by apply: (proj1 (@nbreffect_no_data 0 1 2 "Direct" "slx"
                      (State [:: dfs0; dfs0; oid0] [::]) 1 (erefl _))).
- by apply: (proj2 (@nbreffect_no_data 0 1 2 "Direct" "slx"
                      (State [:: dfs0; Frame table_columns [::]; oid0] [::])
                      1 (erefl _))).
Defined.

Lemma grows_fresh f g s s' : grows s s' -> fresh_maps f g s s'.
Proof.
by move=> [new [evs [h1 h2 h3]]]; exists new, evs; split=> // p; rewrite h3.
Qed.

Lemma fresh_maps_trans f g s s1 s2 :
  fresh_maps f g s s1 -> fresh_maps f g s1 s2 -> fresh_maps f g s s2.
Proof.
move=> [n1 [e1 [h1 h2 h3]]] [n2 [e2 [k1 k2 k3]]].
exists (n1 ++ n2)%SEQ, (e1 ++ e2)%SEQ; split.
- by rewrite k1 h1 catA.
- by rewrite k2 h2 catA.
move=> p; rewrite /plots pmap_cat mem_cat -/(plots e1) -/(plots e2).
case/orP => [/h3 [a1 a2 a3]|/k3 [a1 a2 a3]].
  split=> //; first by rewrite k1 size_cat (leq_trans a2) // leq_addr.
  by rewrite k1 nth_cat a2.
split=> //; apply: leq_trans a1.
by rewrite h1 size_cat leq_addr.
Qed.

Lemma tail_fresh dfs dfm mult model s s1 :
  dfs < size (store s) -> dfm < size (store s) -> grows s s1 ->
  fresh_maps (nth default_frame (store s) dfs)
    (nth default_frame (store s) dfm)
    s (bind (deref dfs) (fun f => bind (deref dfm) (fun g =>
         bind (alloc (concat f g)) (fun dfmap =>
           multmap dfmap mult model))) s1).2.
Proof.
move=> hs hm [new [evs [h1 h2 h3]]].
rewrite /bind /deref /alloc /=.
set f := nth _ (store s1) dfs; set g := nth _ (store s1) dfm.
have -> : nth default_frame (store s) dfs = f by rewrite /f h1 nth_cat hs.
have -> : nth default_frame (store s) dfm = g by rewrite /g h1 nth_cat hm.
set s2 := State _ _.
have [evs2 [ho hp]] := multmap_plots (size (store s1)) mult model s2.
exists (new ++ [:: concat f g])%SEQ, (evs ++ evs2)%SEQ.
rewrite multmap_store ho /= h2 -catA -cats1 h1 -catA; split=> // p.
rewrite /plots pmap_cat -/(plots evs) -/(plots evs2) h3 /= => /hp ->.
rewrite h1 !size_cat leq_addr /= addnA addn1 ltnSn; split=> //.
by rewrite catA nth_cat size_cat ltnn subnn.
Qed.

Lemma nbreffect_fresh dfs dfm oid mult model s :
  dfs < size (store s) -> dfm < size (store s) ->
  fresh_maps (nth default_frame (store s) dfs)
    (nth default_frame (store s) dfm) s
    (nbreffect dfs dfm oid mult model s).2.
Proof.
move=> hs hm; rewrite /nbreffect.
apply: run_bind => [e s1|c s1] /(quiet_run (@quiet_lift _ _)) g1.
  exact: grows_fresh.
apply: run_bind => [e s2|imax s2] /(quiet_run (@quiet_extremum _ _ _)) g2.
  by apply: grows_fresh; exact: grows_trans g1 g2.
apply: run_bind => [e s3|[] s3] /(quiet_run (@quiet_report _ _ _ _ _)) g3.
  by apply: grows_fresh; exact: grows_trans (grows_trans g1 g2) g3.
apply: run_bind => [e s4|imin s4] /(quiet_run (@quiet_extremum _ _ _)) g4.
  apply: grows_fresh.
  exact: grows_trans (grows_trans (grows_trans g1 g2) g3) g4.
apply: run_bind => [e s5|[] s5] /(quiet_run (@quiet_report _ _ _ _ _)) g5.
  apply: grows_fresh.
  exact: grows_trans (grows_trans (grows_trans (grows_trans g1 g2) g3) g4) g5.
apply: tail_fresh => //.
exact: grows_trans (grows_trans (grows_trans (grows_trans g1 g2) g3) g4) g5.
Qed.

(** X4: a loop of [nbreffect] over a list of multipliers, whether it
    ends or raises, leaves every object that was in the store as it was,
    and every map drawn by any of its calls shows an object the loop
    allocated, the concatenation of the unchanged [dfs] and [dfm]. *)
Theorem effects_loop_keeps_inputs (dfs dfm oid : ref) (effects : seq string)
    (model : string) (s : state)
    (Hdfs : dfs < size (store s)) (Hdfm : dfm < size (store s)) :
  let s' := (effects_loop dfs dfm oid effects model s).2 in
  (forall r, r < size (store s) ->
     nth default_frame (store s') r = nth default_frame (store s) r) /\
  fresh_maps (nth default_frame (store s) dfs)
             (nth default_frame (store s) dfm) s s'.
Proof.
have hf : fresh_maps (nth default_frame (store s) dfs)
            (nth default_frame (store s) dfm) s
            (effects_loop dfs dfm oid effects model s).2.
  rewrite /effects_loop.
  elim: effects s Hdfs Hdfm => [|eff effs ih] s hs hm /=.
    by apply: grows_fresh; exact: grows_refl.
  apply: run_bind => [e s1|[] s1] h1.
    by have := nbreffect_fresh oid eff model hs hm; rewrite h1.
  have f1 := nbreffect_fresh oid eff model hs hm; rewrite h1 /= in f1.
  have [new [evs [e1 _ _]]] := f1.
  apply: fresh_maps_trans f1 _.
  have hs1 : dfs < size (store s1) by rewrite e1 size_cat ltn_addr.
  have hm1 : dfm < size (store s1) by rewrite e1 size_cat ltn_addr.
  have := ih s1 hs1 hm1.
  by rewrite e1 !nth_cat hs hm.
move=> s'; split=> // r hr.
by case: hf => new [evs [h1 _ _]]; rewrite /s' h1 nth_cat hr.
Qed.

Lemma effects_loop_keeps_inputs_witness :
  let s := State [:: dfs0; knn0; oid0] [::] in
  let s' := (effects_loop 0 1 2 [:: "EofNbrs"; "EonNbrs"] "kernel" s).2 in
  (forall r, r < size (store s) ->
     nth default_frame (store s') r = nth default_frame (store s) r) /\
  fresh_maps dfs0 knn0 s s'.
Proof.
move=> s.
exact: (@effects_loop_keeps_inputs 0 1 2 [:: "EofNbrs"; "EonNbrs"] "kernel" s
          (isT : 0 < size (store s)) (isT : 1 < size (store s))).
Defined.

Lemma for_each_cat A (xs ys : seq A) (body : A -> M unit) s :
  for_each (xs ++ ys) body s =
  bind (for_each xs body) (fun _ => for_each ys body) s.
Proof.
elim: xs s => [|x xs ih] s //=.
by rewrite /bind; case: (body x s) => [[[]|e] s1] //; rewrite ih.
Qed.



(** X6: a name outside the three valid ones stops the loop where it
    stands: what the earlier multipliers printed, drew and allocated is
    kept, the exception "Invalid column" is raised, and the multipliers
    listed after it are never processed. *)
Theorem effects_loop_invalid_name (dfs dfm oid : ref)
    (pre post : seq string) (bad model : string) (s s1 : state)
    (Hpre : effects_loop dfs dfm oid pre model s = (Returns tt, s1))
    (H1 : bad <> "Direct") (H2 : bad <> "EofNbrs") (H3 : bad <> "EonNbrs") :
  effects_loop dfs dfm oid (pre ++ bad :: post) model s =
    (Raises (Exception "Invalid column"), s1).
Proof.
move: Hpre; rewrite /effects_loop for_each_cat /bind => -> /=.
by rewrite /bind /nbreffect /bind /lift (coli_invalid H1 H2 H3).
Qed.

Lemma effects_loop_invalid_name_witness :
  effects_loop 0 1 2 [:: "EonNbrs"; "direct"; "EofNbrs"] "slx"
    (State [:: dfs0; knn0; oid0] [::]) =
  (Raises (Exception "Invalid column"),
   State [:: dfs0; knn0; oid0; sub0; sub0; concat dfs0 knn0]
         [:: Print "maximum" (Num 1.2%Re) 28003;
             Print "minimum" (Num 0.8%Re) 28001;
             Plot 5 "EonNbrs"; SetTitle "Spatial Multipliers for slx";
             SetAxisOff; Show]).
Proof.
apply: (@effects_loop_invalid_name 0 1 2 [:: "EonNbrs"] [:: "EofNbrs"]
          "direct" "slx") => //.
by rewrite /effects_loop /= /bind nbreffect_example.
Defined.

End FrameExtras.

(* ===================================================================== *)
(** * Further properties of the kernel and transformation tables          *)
(* ===================================================================== *)

Section KernelExtras.
Import Kernels.
Local Open Scope R_scope.
Local Arguments IZR : simpl never.

Lemma z_nth (k : nat) : (k < 21)%N -> nth 0 z k = INR k / 20.
Proof.
move=> hk; rewrite /z /linspace (nth_map 0%N) ?size_iota // nth_iota // add0n.
by rewrite /= ; lra.
Qed.

Lemma z_unit (x : R) : x \in z -> 0 <= x <= 1.
Proof.
move=> /(nthP 0) [k hk <-]; move: hk; rewrite /z /linspace size_map size_iota.
move=> hk; rewrite -/(linspace 0 1 21) -/z z_nth //.
have h0 := pos_INR k.
have /le_INR : (k <= 20)%coq_nat by apply/leP.
by rewrite /=; lra.
Qed.


Lemma kernel_order (x : R) :
  0 <= x <= 1 ->
  [/\ 0 <= triangular x, triangular x <= epanechnikov x,
      epanechnikov x <= gaussian x & gaussian x <= 1].
Proof.
move=> Hx; rewrite /triangular /epanechnikov /gaussian; split; first by lra.
- by nra.
- by have := exp_ineq1_le (- x ^ 2 / 2); nra.
have -> : 1 = exp 0 by rewrite exp_0.
have [->|hx] := Req_dec x 0; first by right; congr exp; lra.
by left; apply: exp_increasing; nra.
Qed.

(** X7: in every row of the kernel tables the triangular weight is at
    most the Epanechnikov weight, the quartic weight is at most the
    Epanechnikov weight, the Epanechnikov weight is at most the Gaussian
    weight, and all four lie between 0 and 1. *)
Theorem kernel_columns_ordered (k : nat) (Hk : (k < size z)%N) :
  [/\ 0 <= nth 0 tri k <= nth 0 epa k,
      0 <= nth 0 quar k <= nth 0 epa k &
      nth 0 epa k <= nth 0 gs k <= 1].
Proof.
have hx : 0 <= nth 0 z k <= 1 by apply: z_unit; rewrite mem_nth.
rewrite epa_map quar_map gs_map /tri !(nth_map 0) //.
have [h1 h2 h3 h4] := kernel_order hx.
have h5 := quartic_le_epanechnikov hx.
split=> //; split=> //.
by rewrite quartic_sqr; apply: pow2_ge_0.
Qed.

Lemma kernel_columns_ordered_witness :
  [/\ 0 <= nth 0 tri 10 <= nth 0 epa 10,
      0 <= nth 0 quar 10 <= nth 0 epa 10 &
      nth 0 epa 10 <= nth 0 gs 10 <= 1].
Proof.
exact: (@kernel_columns_ordered 10 isT).
Defined.



Lemma expon_nth (i : R) (k : nat) :
  (k < size z)%N -> nth 0 (expon i) k = exp (- i * nth 0 z k).
Proof. by move=> hk; rewrite /expon (nth_map 0). Qed.


Lemma exp_le (x y : R) : x <= y -> exp x <= exp y.
Proof.
by case=> [h|->]; [left; exact: exp_increasing | right].
Qed.



Lemma ln_unit (b : R) : 0 < b <= 1 -> ln b <= 0.
Proof.
move=> [h0 [h1|->]]; last by rewrite ln_1; lra.
by rewrite -ln_1; left; apply: ln_increasing.
Qed.

Lemma Rpower_unit (b y : R) : 0 < b <= 1 -> 0 <= y -> 0 < Rpower b y <= 1.
Proof.
move=> /ln_unit hb hy; rewrite /Rpower; split; first exact: exp_pos.
by rewrite -exp_0; apply: exp_le; nra.
Qed.

Lemma Rpower_anti (b i j : R) :
  0 < b <= 1 -> i <= j -> Rpower b j <= Rpower b i.
Proof. by move=> /ln_unit hb hij; rewrite /Rpower; apply: exp_le; nra. Qed.

Lemma pow_za_nth (i : R) (k : nat) :
  (k < size z)%N ->
  nth None (pow_za i) k = float_power (1 - nth 0 z k) i.
Proof.
by move=> hk; rewrite /pow_za (nth_map 0) ?size_map // (nth_map 0).
Qed.

(** X10: for parameters 0 <= i <= j every entry of the inverse power
    columns is a number (never [inf] or [nan]), the column for j lies
    below the column for i, and both stay within [0, 1]. *)
Theorem pow_za_columns (i j : R) (k : nat)
    (Hij : 0 <= i <= j) (Hk : (k < size z)%N) :
  exists u v,
    [/\ nth None (pow_za i) k = Some u, nth None (pow_za j) k = Some v,
        0 <= v, v <= u & u <= 1].
Proof.
have hx : 0 <= nth 0 z k <= 1 by apply: z_unit; rewrite mem_nth.
rewrite !pow_za_nth // /float_power; move: (nth 0 z k) hx => x hx.
case: (Req_dec_T i 0) => [hi|hi] /=; case: (Req_dec_T j 0) => [hj|hj] /=.
- by exists 1, 1; split=> //; lra.
- case: (Rlt_dec 0 (1 - x)) => [hb|hb] /=.
    have [h1 h2] : 0 < Rpower (1 - x) j <= 1 by apply: Rpower_unit; lra.
    by exists 1, (Rpower (1 - x) j); split=> //; lra.
  case: (Req_dec_T (1 - x) 0) => [_|h] /=; last by case: h; lra.
  case: (Rlt_dec 0 j) => [_|h] /=; last by case: h; lra.
  by exists 1, 0; split=> //; lra.
- by exfalso; lra.
case: (Rlt_dec 0 (1 - x)) => [hb|hb] /=.
  have hbu : 0 < 1 - x <= 1 by lra.
  have [h1 h2] : 0 < Rpower (1 - x) j <= 1 by apply: Rpower_unit; lra.
  have [h3 h4] : 0 < Rpower (1 - x) i <= 1 by apply: Rpower_unit; lra.
  have h5 : Rpower (1 - x) j <= Rpower (1 - x) i by apply: Rpower_anti; lra.
  by exists (Rpower (1 - x) i), (Rpower (1 - x) j); split=> //; lra.
case: (Req_dec_T (1 - x) 0) => [_|h] /=; last by case: h; lra.
case: (Rlt_dec 0 i) => [_|h] /=; last by case: h; lra.
case: (Rlt_dec 0 j) => [_|h] /=; last by case: h; lra.
by exists 0, 0; split=> //; lra.
Qed.

Lemma pow_za_columns_witness :
  exists u v,
    [/\ nth None (pow_za 0.5) 20 = Some u, nth None (pow_za 2) 20 = Some v,
        0 <= v, v <= u & u <= 1].
Proof.
have h : 0 <= 0.5 <= 2 by lra.
exact: (@pow_za_columns 0.5 2 20 h isT).
Defined.



(** X12: the inverse power column for the parameter 1 is the triangular
    kernel, and the column for the parameter 0 is constant 1, the last
    row included. *)
Theorem pow_za_one_triangular :
  pow_za 1 = [seq Some w | w <- tri] /\
  pow_za 0 = [seq Some 1 | _ <- z].
Proof.
split.
  rewrite /pow_za /tri -map_comp -[RHS]map_comp.
  apply/eq_in_map => x hx /=; have {}hx := z_unit hx.
  rewrite /float_power /triangular.
  case: (Req_dec_T 1 0) => [h|_] /=; first by exfalso; lra.
  case: (Rlt_dec 0 (1 - x)) => [h|h] /=; first by rewrite Rpower_1.
  case: (Req_dec_T (1 - x) 0) => [e|h'] /=; last by case: h'; lra.
  by case: (Rlt_dec 0 1) => [_|h'] /=; [rewrite e | case: h'; lra].
rewrite /pow_za -map_comp; apply/eq_in_map => x hx /=.
by rewrite /float_power; case: (Req_dec_T 0 0).
Qed.

Lemma hstack_rows T (d : T) (p : seq (seq T)) (c : seq T) :
  size c = size p ->
  exists p',
    [/\ hstack p c = Some p', size p' = size p &
        forall k, (k < size p)%N ->
          nth [::] p' k = rcons (nth [::] p k) (nth d c k)].
Proof.
move=> hc; rewrite /hstack hc eqxx; eexists; split; first by [].
  by rewrite size_map size_zip hc minnn.
move=> k hk; rewrite (nth_map ([::], d)) ?size_zip ?hc ?minnn //.
by rewrite nth_zip.
Qed.

Lemma table_loop_rows T (d : T) (f : R -> seq T) (a : seq R)
    (p : seq (seq T)) :
  (forall i, size (f i) = size p) ->
  table_loop f p a =
    Some [seq (nth [::] p k ++ [seq nth d (f i) k | i <- a])%SEQ
         | k <- iota 0 (size p)].
Proof.
elim: a p => [|i a ih] p hf /=.
  congr Some; apply: (@eq_from_nth _ [::]); rewrite ?size_map ?size_iota //.
  by move=> k hk; rewrite (nth_map 0%N) ?size_iota // nth_iota // cats0.
have [p' [-> hs hn]] := hstack_rows d (hf i).
have hf' : forall j, size (f j) = size p' by move=> j; rewrite hs.
rewrite (ih _ hf') hs.
congr Some; apply/eq_in_map => k; rewrite mem_iota add0n => /andP [_ hk].
by rewrite hn // cat_rcons.
Qed.

Lemma column_rows T (d : T) (c : seq T) (g : T -> seq T) :
  [seq (nth [::] (column c) k ++ g (nth d c k))%SEQ
  | k <- iota 0 (size (column c))] = [seq x :: g x | x <- c].
Proof.
rewrite /column size_map.
apply: (@eq_from_nth _ [::]); rewrite ?size_map ?size_iota // => k hk.
rewrite (nth_map 0%N) ?size_iota // nth_iota // add0n.
by rewrite !(nth_map d).
Qed.

Lemma data_frame_rows T U (h : U -> seq T) (c : seq U)
    (names : seq string) :
  (forall x, size (h x) = size names) ->
  data_frame [seq h x | x <- c] names = Some (names, [seq h x | x <- c]).
Proof.
move=> hg; rewrite /data_frame.
have -> // : all (fun r => size r == size names) [seq h x | x <- c].
by elim: c => //= x c ->; rewrite hg eqxx.
Qed.

(** X13: for every parameter list, the loops that build the tables of
    the negative exponential and of the inverse power end, and the data
    frame is built without an error: it has the column "distance"
    followed by one column per parameter, and the row of a distance
    fraction z holds z followed by the transformation of z for each
    parameter in turn. *)
Theorem distance_tables (str : R -> string) (a : seq R) :
  df5 str a =
    Some (cols str "exp" a, [seq x :: [seq exp (- i * x) | i <- a] | x <- z])
  /\
  df6 str a =
    Some (cols str "pow" a,
          [seq Some x :: [seq power_transform x i | i <- a] | x <- z]).
Proof.
split.
  have h5 i : size (expon i) = size (column z).
    by rewrite /expon /column !size_map.
  rewrite /df5 (table_loop_rows 0 a h5).
  have -> : [seq (nth [::] (column z) k ++
                  [seq nth 0 (expon i) k | i <- a])%SEQ
            | k <- iota 0 (size (column z))] =
            [seq x :: [seq exp (- i * x) | i <- a] | x <- z].
    rewrite -(column_rows 0 z (fun x => [seq exp (- i * x) | i <- a])).
    apply/eq_in_map => k; rewrite mem_iota add0n /column size_map.
    move=> /andP [_ hk]; congr (_ ++ _)%SEQ.
    by apply/eq_map => i; rewrite expon_nth.
  by apply: data_frame_rows => x; rewrite /cols /= !size_map.
set zs := [seq Some x | x <- z].
have h6 i : size (pow_za i) = size (column zs).
  by rewrite /pow_za /column /zs !size_map.
rewrite /df6 -/zs (table_loop_rows None a h6).
have -> : [seq (nth [::] (column zs) k ++
                [seq nth None (pow_za i) k | i <- a])%SEQ
          | k <- iota 0 (size (column zs))] =
          [seq Some x :: [seq power_transform x i | i <- a] | x <- z].
  have -> : [seq Some x :: [seq power_transform x i | i <- a] | x <- z] =
            [seq y :: [seq (if y is Some x then power_transform x i
                            else None) | i <- a] | y <- zs].
    by rewrite /zs -map_comp.
  rewrite -(column_rows None zs).
  apply/eq_in_map => k; rewrite mem_iota add0n /column /zs !size_map.
  move=> /andP [_ hk]; congr (_ ++ _)%SEQ.
  apply/eq_map => i; rewrite pow_za_nth // (nth_map 0) //.
by apply: data_frame_rows => x; rewrite /cols /= !size_map.
Qed.

End KernelExtras.

(* ===================================================================== *)
(** * Properties of the neighbour weights and of the rejection frequencies *)
(* ===================================================================== *)

Section NeighborExtras.
Import Neighbors Multipliers.
Local Open Scope R_scope.
Local Arguments IZR : simpl never.

Lemma loop_cat cards pre rest j out :
  known cards pre ->
  loop cards (pre ++ rest) j out =
    loop cards rest (j + total [seq 1 / IZR (card cards i) | i <- pre])
      (out ++ lines cards pre)%SEQ.
Proof.
elim: pre j out => [|i pre ih] j out /=.
  by rewrite cats0 /total /= Rplus_0_r.
rewrite /card; case hl : (lookup cards i) => [u|] //= /andP [hu hk].
rewrite /inverse (negbTE hu) ih // -cats1 -catA /=.
by rewrite /lines /= /card ?hl /total /= Rplus_assoc.
Qed.

Lemma loop_known cards nbrs j out :
  known cards nbrs ->
  loop cards nbrs j out =
    (Returns (j + total [seq 1 / IZR (card cards i) | i <- nbrs]),
     (out ++ lines cards nbrs)%SEQ).
Proof.
by move=> hk; rewrite -[in LHS](cats0 nbrs) loop_cat.
Qed.



(** X14: when the unit has a neighbour list and every neighbour has a
    recorded cardinality other than 0, the cell ends without an error;
    it prints the list, one line per neighbour in the order of the list
    with the inverse of its cardinality, and last the total, which is the
    sum of these inverses. *)
Theorem neighbor_weights_total (neighbors : dict (seq Z)) (cards : dict Z)
    (key : Z) (nbrs : seq Z)
    (Hkey : lookup neighbors key = Some nbrs) (Hcards : known cards nbrs) :
  neighbor_weights neighbors cards key =
    (Returns tt,
     (NeighborList nbrs :: lines cards nbrs ++
      [:: TotalEffect (total [seq 1 / IZR (card cards i) | i <- nbrs])])%SEQ).
Proof.
rewrite /neighbor_weights Hkey loop_known // Rplus_0_l.
by rewrite -cats1.
Qed.

Lemma neighbor_weights_total_witness :
  neighbor_weights [:: (1, [:: 2; 3])%Z] [:: (2, 1); (3, 2)]%Z 1 =
    (Returns tt,
     [:: NeighborList [:: 2; 3]%Z; Cardinality 2 1 (1 / 1);
         Cardinality 3 2 (1 / 2); TotalEffect (1 / 1 + (1 / 2 + 0))]).
Proof.
exact: (@neighbor_weights_total [:: (1, [:: 2; 3])%Z]
          [:: (2, 1); (3, 2)]%Z 1%Z [:: 2; 3]%Z (erefl _) isT).
Defined.



(** X16: the first neighbour without a usable cardinality stops the
    cell: a cardinality of 0 raises ZeroDivisionError and a missing one
    raises KeyError; the lines of the neighbours before it have been
    printed, its own line and the total have not. *)
Theorem neighbor_weights_stops (neighbors : dict (seq Z)) (cards : dict Z)
    (key i : Z) (pre post : seq Z)
    (Hkey : lookup neighbors key = Some (pre ++ i :: post)%SEQ)
    (Hpre : known cards pre) :
  (lookup cards i = Some 0%Z ->
   neighbor_weights neighbors cards key =
     (Raises ZeroDivisionError,
      NeighborList (pre ++ i :: post) :: lines cards pre)) /\
  (lookup cards i = None ->
   neighbor_weights neighbors cards key =
     (Raises (KeyError i),
      NeighborList (pre ++ i :: post) :: lines cards pre)).
Proof.
by split=> hi; rewrite /neighbor_weights Hkey loop_cat //= hi.
Qed.

Lemma neighbor_weights_stops_witness :
  neighbor_weights [:: (1, [:: 2; 3; 4])%Z] [:: (2, 1); (3, 0)]%Z 1 =
    (Raises ZeroDivisionError,
     [:: NeighborList [:: 2; 3; 4]%Z; Cardinality 2 1 (1 / 1)]) /\
  neighbor_weights [:: (1, [:: 2; 5; 4])%Z] [:: (2, 1); (3, 0)]%Z 1 =
    (Raises (KeyError 5),
     [:: NeighborList [:: 2; 5; 4]%Z; Cardinality 2 1 (1 / 1)]).
Proof.
split.
- exact: (proj1 (@neighbor_weights_stops [:: (1, [:: 2; 3; 4])%Z]
            [:: (2, 1); (3, 0)]%Z 1%Z 3%Z [:: 2%Z] [:: 4%Z] (erefl _) isT)
            (erefl _)).
- exact: (proj2 (@neighbor_weights_stops [:: (1, [:: 2; 5; 4])%Z]
            [:: (2, 1); (3, 0)]%Z 1%Z 5%Z [:: 2%Z] [:: 4%Z] (erefl _) isT)
            (erefl _)).
Defined.

End NeighborExtras.

Section SimulationExtras.
Import Frames Multipliers Simulation.
Local Open Scope R_scope.
Local Arguments IZR : simpl never.
Local Arguments INR : simpl never.

Lemma total_indicator (P : pred (seq R)) (best : seq (seq R)) :
  total [seq IZR (if P row then 1 else 0)%Z | row <- best] =
  INR (count P best).
Proof.
elim: best => [|row best ih] //=; rewrite -/(total _) ih.
by case: (P row) => /=; rewrite ?add0n ?add1n ?S_INR; lra.
Qed.

Lemma mm_nth (p : R) (ncols j : nat) (best : seq (seq R)) :
  all (fun row => size row == ncols) best -> (j < ncols)%N ->
  nth 0 (mm p ncols best) j =
  INR (count (fun row => Rltb (nth 0 row j) p) best) / INR (size best).
Proof.
move=> hs hj; rewrite /mm /mean_axis0 (nth_map 0%N) ?size_iota //.
rewrite nth_iota // add0n /significant size_map -map_comp.
rewrite -total_indicator; congr (total _ / _).
apply/eq_in_map => row hrow /=.
have /eqP hr := allP hs _ hrow.
by rewrite (nth_map 0) // hr.
Qed.

(** X17: with at least one replication, each entry of [mm] is the number
    of replications whose p-value is below the threshold divided by the
    number of replications; it lies between 0 and 1 and does not
    decrease when the threshold is raised. *)
Theorem rejection_frequency (p p' : R) (ncols j : nat) (best : seq (seq R))
    (Hreps : (0 < size best)%N)
    (Hshape : all (fun row => size row == ncols) best)
    (Hj : (j < ncols)%N) (Hp : p <= p') :
  [/\ nth 0 (mm p ncols best) j =
        INR (count (fun row => Rltb (nth 0 row j) p) best) / INR (size best),
      0 <= nth 0 (mm p ncols best) j <= 1 &
      nth 0 (mm p ncols best) j <= nth 0 (mm p' ncols best) j].
Proof.
rewrite !mm_nth //.
set c := count _ best; set c' := count _ best.
have hn : 0 < INR (size best) by apply: lt_0_INR; apply/ltP.
have h0 : 0 <= INR c by apply: pos_INR.
have h1 : INR c <= INR (size best).
  by apply: le_INR; apply/leP; rewrite /c count_size.
have h2 : INR c <= INR c'.
  apply: le_INR; apply/leP; apply: sub_count => row /=.
  by move=> /Rltb_ltP hlt; apply: Rltb_true; lra.
have hi : 0 < / INR (size best) by apply: Rinv_0_lt_compat.
split=> //; rewrite /Rdiv.
  split; first by nra.
  by apply: (Rmult_le_reg_r (INR (size best))) => //;
     rewrite Rmult_assoc Rinv_l; lra.
by apply: Rmult_le_compat_r => //; lra.
Qed.

Lemma rejection_frequency_witness :
  [/\ nth 0 (mm 0.05 2 [:: [:: 0.01; 0.2]; [:: 0.07; 0.3]]) 0 =
        INR (count (fun row => Rltb (nth 0 row 0) 0.05)
               [:: [:: 0.01; 0.2]; [:: 0.07; 0.3]]) / INR 2,
      0 <= nth 0 (mm 0.05 2 [:: [:: 0.01; 0.2]; [:: 0.07; 0.3]]) 0 <= 1 &
      nth 0 (mm 0.05 2 [:: [:: 0.01; 0.2]; [:: 0.07; 0.3]]) 0 <=
      nth 0 (mm 0.1 2 [:: [:: 0.01; 0.2]; [:: 0.07; 0.3]]) 0].
Proof.
have hp : 0.05 <= 0.1 by lra.
exact: (@rejection_frequency 0.05 0.1 2 0
          [:: [:: 0.01; 0.2]; [:: 0.07; 0.3]] isT isT isT hp).
Defined.

End SimulationExtras.
